(** * pilot/pkg/status/resourcelock.go: the status work queue and worker pool

    A shallow embedding of [WorkQueue] (Push, Pop, Length, Delete), of the
    body of the worker goroutine started by [WorkerPool.maybeAddWorker], and
    of the pool as a transition system whose atomic steps are the critical
    sections of the two mutexes ([WorkQueue.lock] and [WorkerPool.lock]). *)

From Stdlib Require Import ZArith Lia DecimalString.
From stdpp Require Import gmap strings list fin_maps.

Local Open Scope string_scope.
Local Open Scope Z_scope.
Local Open Scope list_scope.
Local Open Scope stdpp_scope.

(** ** Data model *)

(** [schema.GroupVersionResource] of k8s.io/apimachinery: three strings. *)
Record GroupVersionResource := {
  Group : string;
  Version : string;
  Resource_ : string;
}.

(** Modelled from the spec: the [Resource] struct is declared outside
    resourcelock.go; it carries the resource-type descriptor, namespace, name
    and the generation in string form.  Equality is structural ([==]). *)
Record Resource := {
  R_GroupVersionResource : GroupVersionResource;
  R_Namespace : string;
  R_Name : string;
  R_Generation : string;
}.

Record lockResource := {
  L_GroupVersionResource : GroupVersionResource;
  L_Namespace : string;
  L_Name : string;
}.

#[global] Instance GroupVersionResource_eq_dec : EqDecision GroupVersionResource.
Proof. solve_decision. Defined.
#[global] Instance Resource_eq_dec : EqDecision Resource.
Proof. solve_decision. Defined.
#[global] Instance lockResource_eq_dec : EqDecision lockResource.
Proof. solve_decision. Defined.

#[global] Instance lockResource_countable : Countable lockResource.
Proof.
  refine (inj_countable'
    (fun k => (Group (L_GroupVersionResource k), Version (L_GroupVersionResource k),
               Resource_ (L_GroupVersionResource k), L_Namespace k, L_Name k))
    (fun t => match t with
              | (g, v, r, ns, n) =>
                  {| L_GroupVersionResource := {| Group := g; Version := v; Resource_ := r |};
                     L_Namespace := ns; L_Name := n |}
              end) _).
  intros [[g v r] ns n]; reflexivity.
Defined.

(** [convert] drops the generation. *)
Definition convert (i : Resource) : lockResource :=
  {| L_GroupVersionResource := R_GroupVersionResource i;
     L_Namespace := R_Namespace i;
     L_Name := R_Name i |}.

(** [Resource{}], the zero value. *)
Definition Resource_zero : Resource :=
  {| R_GroupVersionResource := {| Group := ""; Version := ""; Resource_ := "" |};
     R_Namespace := ""; R_Name := ""; R_Generation := "" |}.

(** Pointers.  Modelled from the spec: the [Controller] struct is declared
    outside resourcelock.go; a submitter is an identity used as a map key
    plus a merge function [fn].  A [*Controller] is its address; a Go map is
    a reference to a heap object. *)
Definition ptr := positive.
Definition Controller := ptr.

(** [*IstioGenerationProvider]: the embedded [*v1alpha1.IstioStatus]. *)
Record IstioGenerationProvider := { IstioStatus : ptr }.

(** A Go [interface{}] value, by dynamic type, as far as this file tells
    them apart.  [GenerationProvider] values are interface values too. *)
Inductive any :=
  | nil
  | IstioStatus_ptr (s : ptr)
  | Provider_ptr (i : IstioGenerationProvider)
  | opaque (tag : string).

#[global] Instance IstioGenerationProvider_eq_dec : EqDecision IstioGenerationProvider.
Proof. solve_decision. Defined.
#[global] Instance any_eq_dec : EqDecision any.
Proof. solve_decision. Defined.

(** The Go heap, restricted to the [map[*Controller]interface{}] objects the
    queue allocates: a reference leads to the contents of its map. *)
Abbreviation Heap := (gmap ptr (gmap Controller any)).

Record cacheEntry := {
  cacheResource : Resource;
  perControllerStatus : ptr;   (* reference to a map object in the heap *)
}.

(** [WorkQueue]: the pending keys and the cache.  [lock] is modelled by the
    atomicity of the operations below; [OnPush] is [nil] in every queue that
    [NewWorkerPool] builds, so its call in [Push] never fires. *)
Record WorkQueue := {
  tasks : list lockResource;
  cache : gmap lockResource cacheEntry;
}.

(** ** WorkQueue operations *)

(** The map object behind a reference (an unallocated reference reads as
    the empty map). *)
Definition deref (h : Heap) (p : ptr) : gmap Controller any :=
  default ∅ (h !! p).

(** [Push]: merge into the entry's map object when the key is cached, else
    allocate a singleton map, store a new entry and append the key. *)
Definition Push (target : Resource) (ctl : Controller) (progress : any)
    (st : Heap * WorkQueue) : Heap * WorkQueue :=
  let '(h, wq) := st in
  let key := convert target in
  match cache wq !! key with
  | Some item =>
      (<[perControllerStatus item := <[ctl := progress]> (deref h (perControllerStatus item))]> h,
       {| tasks := tasks wq; cache := <[key := item]> (cache wq) |})
  | None =>
      let m := fresh (dom h) in
      (<[m := {[ctl := progress]}]> h,
       {| tasks := tasks wq ++ [key];
          cache := <[key := {| cacheResource := target; perControllerStatus := m |}]> (cache wq) |})
  end.

(** The loop of [Pop], from index [i] on; [rest] is [tasks[i:]].  The second
    component is the returned map reference, [None] for Go's [nil]. *)
Fixpoint Pop_from (exclusion : gset lockResource) (wq : WorkQueue) (i : nat)
    (rest : list lockResource) : Resource * option ptr * WorkQueue :=
  match rest with
  | [] => (Resource_zero, None, wq)
  | k :: rest' =>
      if decide (k ∈ exclusion) then Pop_from exclusion wq (S i) rest'
      else
        let wq' := {| tasks := take i (tasks wq) ++ drop (S i) (tasks wq);
                      cache := cache wq |} in
        match cache wq !! k with
        | None => (Resource_zero, None, wq')
        | Some t => (cacheResource t, Some (perControllerStatus t), wq')
        end
  end.

Definition Pop (exclusion : gset lockResource) (wq : WorkQueue)
    : Resource * option ptr * WorkQueue :=
  Pop_from exclusion wq 0 (tasks wq).

Definition Length (wq : WorkQueue) : nat := length (tasks wq).

Definition Delete (target : Resource) (wq : WorkQueue) : WorkQueue :=
  {| tasks := tasks wq; cache := delete (convert target) (cache wq) |}.

(** The queue of [NewWorkerPool]. *)
Definition WorkQueue_new : WorkQueue := {| tasks := []; cache := ∅ |}.

(** ** The worker body: get / merge / write *)

(** [strconv.FormatInt(i, 10)]: decimal digits, a leading minus sign for
    negative numbers. *)
Definition FormatInt10 (i : Z) : string := NilZero.string_of_int (Z.to_int i).

(** Modelled from the spec: [config.Config] is declared outside
    resourcelock.go; the worker reads its generation (an int64) and its raw
    status value. *)
Record Config := {
  Generation : Z;
  Status : any;
}.

#[global] Instance Config_eq_dec : EqDecision Config.
Proof. solve_decision. Defined.

(** [v1alpha1.IstioStatus], the object behind an [IstioStatus_ptr]. *)
Record IstioStatusObj := {
  ObservedGeneration : Z;
  Conditions : list string;
}.

(** [IstioGenerationProvider.SetObservedGeneration]: writes the field of
    the status object the provider points to. *)
Definition SetObservedGeneration (i : IstioGenerationProvider) (gen : Z)
    (objs : gmap ptr IstioStatusObj) : gmap ptr IstioStatusObj :=
  alter (fun s => {| ObservedGeneration := gen; Conditions := Conditions s |})
        (IstioStatus i) objs.

(** [IstioGenerationProvider.Unwrap]: the embedded status pointer. *)
Definition Unwrap (i : IstioGenerationProvider) : any :=
  IstioStatus_ptr (IstioStatus i).

(** What the worker does to the outside world, in order: the calls it makes
    on the injected collaborators, on the logger and on the provider.
    [panic] is Go's nil-dereference panic of a method call on a nil
    interface value; nothing follows it. *)
Inductive Call :=
  | get_call (target : Resource)
  | Warnf_call (err : string)
  | SetObservedGeneration_call (x : any) (gen : Z)
  | fn_call (c : Controller) (x i : any)
  | write_call (cfg : Config) (x : any)
  | panic.

#[global] Instance Call_eq_dec : EqDecision Call.
Proof. solve_decision. Defined.

Definition is_write (c : Call) : bool :=
  match c with write_call _ _ => true | _ => false end.
Definition is_SetObservedGeneration (c : Call) : bool :=
  match c with SetObservedGeneration_call _ _ => true | _ => false end.

Section Worker.
(** The injected getter ([nil] is [None]). *)
Variable get : Resource -> option Config.
(** [GetOGProvider] is declared outside resourcelock.go: it returns a
    provider and an error ([None] for a nil error). *)
Variable GetOGProvider : any -> any * option string.
(** [c.fn], the merge function of controller [c]. *)
Variable fn : Controller -> any -> any -> any.

(** [for c, i := range perControllerWork { x = c.fn(x, i) }], over the
    entries in the order the runtime yields them. *)
Fixpoint merge_all (x : any) (work : list (Controller * any)) : any * list Call :=
  match work with
  | [] => (x, [])
  | (c, i) :: work' =>
      let '(x', calls) := merge_all (fn c x i) work' in
      (x', fn_call c x i :: calls)
  end.

(** Lines 203-220: the work done without holding the lock. *)
Definition process (target : Resource) (perControllerWork : list (Controller * any))
    : list Call :=
  get_call target ::
  match get target with
  | None => []
  | Some cfg =>
      if decide (FormatInt10 (Generation cfg) = R_Generation target) then
        let '(x, err) := GetOGProvider (Status cfg) in
        match err, x with
        | Some e, _ =>
            let '(x', calls) := merge_all x perControllerWork in
            Warnf_call e :: calls ++ [write_call cfg x']
        | None, nil => [panic]
        | None, _ =>
            let '(x', calls) := merge_all x perControllerWork in
            SetObservedGeneration_call x (Generation cfg) :: calls ++ [write_call cfg x']
        end
      else []
  end.

(** Go does not fix the order in which [range] visits a map: the worker
    may see any enumeration of the entries. *)
Definition worker_body (target : Resource) (perControllerWork : gmap Controller any)
    (calls : list Call) : Prop :=
  exists order, order ≡ₚ map_to_list perControllerWork /\ calls = process target order.

(** The value handed to the writer is the left fold of the merge
    functions over the entries. *)
Definition merged (x : any) (work : list (Controller * any)) : any :=
  fold_left (fun x ci => fn ci.1 x ci.2) work x.
End Worker.

(** ** The worker pool as a transition system *)

(** Go's [uint] on a 64-bit platform. *)
Definition uint_modulus : Z := 2 ^ 64.
Definition uint_inc (c : Z) : Z := (c + 1) mod uint_modulus.
Definition uint_dec (c : Z) : Z := (c - 1) mod uint_modulus.

(** Where a worker goroutine stands in the loop of [maybeAddWorker]. *)
Inductive pc :=
  | AtTop                                              (* line 184: about to take the pool lock *)
  | AtPop                                              (* line 191: lock held, queue was non-empty *)
  | AtDelete (target : Resource) (work : option ptr)   (* line 199: lock held, a task was popped *)
  | AtGet (target : Resource) (work : option ptr)      (* line 203: lock released, key marked *)
  | AtUnmark (target : Resource)                       (* line 221: work done *)
  | Exited.                                            (* line 188: returned *)

(** The fields of [WorkerPool] ([write] and [get] are the collaborators of
    the worker body) together with the part of the runtime the pool lives
    in: [heap] holds the map objects, [lock] tells whether the pool mutex is
    taken, [workers] are the goroutines started so far. *)
Record PoolState := {
  q : WorkQueue;
  heap : Heap;
  closing : bool;
  workerCount : Z;
  maxWorkers : Z;
  currentlyWorking : gset lockResource;
  lock : bool;
  workers : list pc;
}.

(** [NewWorkerPool(write, get, maxWorkers)]. *)
Definition NewWorkerPool (maxW : Z) : PoolState :=
  {| q := WorkQueue_new; heap := ∅; closing := false; workerCount := 0;
     maxWorkers := maxW; currentlyWorking := ∅; lock := false; workers := [] |}.

(** What the collaborators answer during one run of the worker body, and
    the order in which [range] yields the map entries. *)
Record Oracle := {
  o_get : Resource -> option Config;
  o_GetOGProvider : any -> any * option string;
  o_fn : Controller -> any -> any -> any;
  o_order : list (Controller * any);
}.

(** The atomic actions: the queue half of [WorkerPool.Push], the
    [maybeAddWorker] half, [WorkerPool.Delete], the watcher of [Run] seeing
    the context done, and one move of worker [i]. *)
Inductive action :=
  | a_Push (target : Resource) (ctl : Controller) (progress : any)
  | a_maybeAddWorker
  | a_Delete (target : Resource)
  | a_cancel
  | a_worker (i : nat) (o : Oracle).

(** A run of the worker body is visible as the task and the calls made. *)
Definition label := option (Resource * list Call).

Definition deref_opt (h : Heap) (work : option ptr) : gmap Controller any :=
  match work with Some p => deref h p | None => ∅ end.

Definition set_worker (i : nat) (w : pc) (s : PoolState) : list pc :=
  <[i := w]> (workers s).

Definition worker_move (i : nat) (o : Oracle) (s : PoolState) : option (PoolState * label) :=
  match workers s !! i with
  | Some AtTop =>
      if lock s then None
      else if closing s || bool_decide (Length (q s) = 0%nat) then
        Some ({| q := q s; heap := heap s; closing := closing s;
                 workerCount := uint_dec (workerCount s); maxWorkers := maxWorkers s;
                 currentlyWorking := currentlyWorking s; lock := false;
                 workers := set_worker i Exited s |}, None)
      else
        Some ({| q := q s; heap := heap s; closing := closing s;
                 workerCount := workerCount s; maxWorkers := maxWorkers s;
                 currentlyWorking := currentlyWorking s; lock := true;
                 workers := set_worker i AtPop s |}, None)
  | Some AtPop =>
      let '(target, work, q') := Pop (currentlyWorking s) (q s) in
      if decide (target = Resource_zero) then
        Some ({| q := q'; heap := heap s; closing := closing s;
                 workerCount := workerCount s; maxWorkers := maxWorkers s;
                 currentlyWorking := currentlyWorking s; lock := false;
                 workers := set_worker i AtTop s |}, None)
      else
        Some ({| q := q'; heap := heap s; closing := closing s;
                 workerCount := workerCount s; maxWorkers := maxWorkers s;
                 currentlyWorking := currentlyWorking s; lock := lock s;
                 workers := set_worker i (AtDelete target work) s |}, None)
  | Some (AtDelete target work) =>
      (* Delete, mark in flight, unlock: the mark and the unlock touch
         nothing another goroutine can reach while the lock is held *)
      Some ({| q := Delete target (q s); heap := heap s; closing := closing s;
               workerCount := workerCount s; maxWorkers := maxWorkers s;
               currentlyWorking := {[convert target]} ∪ currentlyWorking s; lock := false;
               workers := set_worker i (AtGet target work) s |}, None)
  | Some (AtGet target work) =>
      (* lines 203-220, outside the lock; a panic would end the whole
         process, the pool is allowed to go on *)
      Some ({| q := q s; heap := heap s; closing := closing s;
               workerCount := workerCount s; maxWorkers := maxWorkers s;
               currentlyWorking := currentlyWorking s; lock := lock s;
               workers := set_worker i (AtUnmark target) s |},
            Some (target, process (o_get o) (o_GetOGProvider o) (o_fn o) target (o_order o)))
  | Some (AtUnmark target) =>
      if lock s then None
      else
        Some ({| q := q s; heap := heap s; closing := closing s;
                 workerCount := workerCount s; maxWorkers := maxWorkers s;
                 currentlyWorking := currentlyWorking s ∖ {[convert target]}; lock := false;
                 workers := set_worker i AtTop s |}, None)
  | Some Exited | None => None
  end.

Definition exec (a : action) (s : PoolState) : option (PoolState * label) :=
  match a with
  | a_Push target ctl progress =>
      let '(h', q') := Push target ctl progress (heap s, q s) in
      Some ({| q := q'; heap := h'; closing := closing s;
               workerCount := workerCount s; maxWorkers := maxWorkers s;
               currentlyWorking := currentlyWorking s; lock := lock s;
               workers := workers s |}, None)
  | a_maybeAddWorker =>
      if lock s then None
      else if bool_decide (workerCount s >= maxWorkers s) || bool_decide (Length (q s) = 0%nat) then
        Some (s, None)
      else
        Some ({| q := q s; heap := heap s; closing := closing s;
                 workerCount := uint_inc (workerCount s); maxWorkers := maxWorkers s;
                 currentlyWorking := currentlyWorking s; lock := false;
                 workers := workers s ++ [AtTop] |}, None)
  | a_Delete target =>
      Some ({| q := Delete target (q s); heap := heap s; closing := closing s;
               workerCount := workerCount s; maxWorkers := maxWorkers s;
               currentlyWorking := currentlyWorking s; lock := lock s;
               workers := workers s |}, None)
  | a_cancel =>
      if lock s then None
      else
        Some ({| q := q s; heap := heap s; closing := true;
                 workerCount := workerCount s; maxWorkers := maxWorkers s;
                 currentlyWorking := currentlyWorking s; lock := false;
                 workers := workers s |}, None)
  | a_worker i o => worker_move i o s
  end.

(** The enumeration of a worker run must be one of the map it holds. *)
Definition order_ok (a : action) (s : PoolState) : Prop :=
  match a with
  | a_worker i o =>
      match workers s !! i with
      | Some (AtGet _ work) => o_order o ≡ₚ map_to_list (deref_opt (heap s) work)
      | _ => True
      end
  | _ => True
  end.

Definition step (s : PoolState) (a : action) (l : label) (s' : PoolState) : Prop :=
  order_ok a s /\ exec a s = Some (s', l).

(** Runs of the pool, with the actions taken and the labels seen. *)
Inductive run : PoolState -> list action -> list label -> PoolState -> Prop :=
  | run_nil s : run s [] [] s
  | run_step s a l s1 acts ls s2 :
      step s a l s1 -> run s1 acts ls s2 -> run s (a :: acts) (l :: ls) s2.

Definition uint_range (n : Z) : Prop := 0 <= n < uint_modulus.

Definition reachable (s : PoolState) : Prop :=
  exists maxW acts ls, uint_range maxW /\ run (NewWorkerPool maxW) acts ls s.

(** ** Interleavings of queue operations *)

Inductive qop :=
  | q_Push (target : Resource) (ctl : Controller) (progress : any)
  | q_Pop (exclusion : gset lockResource)
  | q_Delete (target : Resource).

Definition qexec (st : Heap * WorkQueue) (o : qop) : Heap * WorkQueue :=
  match o with
  | q_Push target ctl progress => Push target ctl progress st
  | q_Pop exclusion => (st.1, (Pop exclusion st.2).2)
  | q_Delete target => (st.1, Delete target st.2)
  end.

Definition qrun (ops : list qop) (st : Heap * WorkQueue) : Heap * WorkQueue :=
  fold_left qexec ops st.

Definition qinit : Heap * WorkQueue := (∅, WorkQueue_new).

(** Every [Delete] of the interleaving hits a key that is not in the pending
    sequence at that moment (as the worker's delete-after-pop does). *)
Fixpoint deletes_guarded (ops : list qop) (st : Heap * WorkQueue) : bool :=
  match ops with
  | [] => true
  | o :: ops' =>
      match o with
      | q_Delete target => bool_decide (convert target ∉ tasks st.2)
      | _ => true
      end && deletes_guarded ops' (qexec st o)
  end.

(** A key and resources used in the examples below. *)
Definition gvr_vs : GroupVersionResource :=
  {| Group := "networking.istio.io"; Version := "v1alpha3"; Resource_ := "virtualservices" |}.
Definition res (name gen : string) : Resource :=
  {| R_GroupVersionResource := gvr_vs; R_Namespace := "default";
     R_Name := name; R_Generation := gen |}.

(** ** Invariants of the queue *)

(** Every cache entry is stored under the key of its own snapshot. *)
Definition coherent (wq : WorkQueue) : Prop :=
  forall k e, cache wq !! k = Some e -> convert (cacheResource e) = k.

(** Every pending key has a cache entry. *)
Definition pending_cached (wq : WorkQueue) : Prop :=
  forall k, k ∈ tasks wq -> is_Some (cache wq !! k).



(** ** Pushes for one key among other operations *)







(** Two submitters; pushes for "reviews" at generations 1, 2, 3, with a push
    for "ratings" before them and a push and a Pop of "ratings" in between. *)
Definition ctlA : Controller := 1%positive.
Definition ctlB : Controller := 2%positive.

(** ** Shape of a worker run *)

(** The merge calls of the [range] loop, in order. *)
Fixpoint fn_calls (fn : Controller -> any -> any -> any) (x : any)
    (work : list (Controller * any)) : list Call :=
  match work with
  | [] => []
  | (c, i) :: work' => fn_call c x i :: fn_calls fn (fn c x i) work'
  end.

Definition no_write (calls : list Call) : Prop := Forall (fun c => is_write c = false) calls.
Definition no_SetObservedGeneration (calls : list Call) : Prop :=
  Forall (fun c => is_SetObservedGeneration c = false) calls.

(** Collaborators used in the examples: the stored config is at generation
    1; its status is a [*v1alpha1.IstioStatus] at address 9 or a value of
    another type; every merge function returns the provider it was given.
    Modelled from the spec: [og_lookup] stands for [GetOGProvider], a lookup
    keyed on the runtime shape of the raw status that fails when no provider
    matches. *)
Definition cfg_istio : Config := {| Generation := 1; Status := IstioStatus_ptr 9%positive |}.
Definition cfg_foreign : Config := {| Generation := 1; Status := opaque "GatewayStatus" |}.
Definition get_istio (_ : Resource) : option Config := Some cfg_istio.
Definition get_foreign (_ : Resource) : option Config := Some cfg_foreign.
Definition get_absent (_ : Resource) : option Config := None.
Definition og_lookup (status : any) : any * option string :=
  match status with
  | IstioStatus_ptr p => (Provider_ptr {| IstioStatus := p |}, None)
  | _ => (nil, Some "cannot cast to GenerationProvider")
  end.
Definition fn_keep (_ : Controller) (x _ : any) : any := x.
Definition ex_oracle (get : Resource -> option Config) (order : list (Controller * any)) : Oracle :=
  {| o_get := get; o_GetOGProvider := og_lookup; o_fn := fn_keep; o_order := order |}.

(** ** Invariants of the pool *)

(** The worker holds the pool lock. *)
Definition holding (w : pc) : bool :=
  match w with AtPop | AtDelete _ _ => true | _ => false end.

(** The key the worker has marked in flight. *)
Definition inflight (w : pc) : option lockResource :=
  match w with
  | AtGet target _ | AtUnmark target => Some (convert target)
  | _ => None
  end.

(** The task the worker carries, if any. *)
Definition carried (w : pc) : option Resource :=
  match w with
  | AtDelete target _ | AtGet target _ | AtUnmark target => Some target
  | _ => None
  end.

Definition live (w : pc) : bool :=
  match w with Exited => false | _ => true end.

Fixpoint live_count (ws : list pc) : nat :=
  match ws with
  | [] => 0
  | w :: ws' => ((if live w then 1 else 0) + live_count ws')%nat
  end.

Record pool_inv (s : PoolState) : Prop := {
  inv_coherent : coherent (q s);
  inv_locked : forall i w, workers s !! i = Some w -> holding w = true -> lock s = true;
  inv_one_holder : forall i j wi wj,
      workers s !! i = Some wi -> workers s !! j = Some wj ->
      holding wi = true -> holding wj = true -> i = j;
  inv_popped_free : forall i target work,
      workers s !! i = Some (AtDelete target work) -> convert target ∉ currentlyWorking s;
  inv_nonzero : forall i w target,
      workers s !! i = Some w -> carried w = Some target -> target <> Resource_zero;
  inv_marked : forall i w k,
      workers s !! i = Some w -> inflight w = Some k -> k ∈ currentlyWorking s;
  inv_exclusive : forall i j wi wj k,
      workers s !! i = Some wi -> workers s !! j = Some wj ->
      inflight wi = Some k -> inflight wj = Some k -> i = j;
  inv_count : workerCount s = Z.of_nat (live_count (workers s));
  inv_bound : workerCount s <= maxWorkers s;
  inv_max : uint_range (maxWorkers s);
}.

(** ** Running a list of actions *)

Definition order_okb (a : action) (s : PoolState) : bool :=
  match a with
  | a_worker i o =>
      match workers s !! i with
      | Some (AtGet _ work) => bool_decide (o_order o ≡ₚ map_to_list (deref_opt (heap s) work))
      | _ => true
      end
  | _ => true
  end.

Fixpoint exec_all (acts : list action) (s : PoolState) : option (PoolState * list label) :=
  match acts with
  | [] => Some (s, [])
  | a :: acts' =>
      if order_okb a s then
        match exec a s with
        | Some (s1, l) =>
            match exec_all acts' s1 with
            | Some (s2, ls) => Some (s2, l :: ls)
            | None => None
            end
        | None => None
        end
      else None
  end.

(** A run with two workers on two keys: both pushes are made and both
    workers are provisioned, then each worker locks, pops, deletes and marks
    its key. *)
Definition no_oracle : Oracle := ex_oracle get_absent [].
Definition ex_acts : list action :=
  [a_Push (res "reviews" "1") ctlA (opaque "U1"); a_maybeAddWorker;
   a_Push (res "ratings" "7") ctlA (opaque "V0"); a_maybeAddWorker;
   a_Push (res "reviews" "1") ctlB (opaque "U2"); a_maybeAddWorker;
   a_worker 0 no_oracle; a_worker 0 no_oracle; a_worker 0 no_oracle;
   a_worker 1 no_oracle; a_worker 1 no_oracle; a_worker 1 no_oracle].
Definition ex_state : PoolState :=
  match exec_all ex_acts (NewWorkerPool 2) with
  | Some (s, _) => s
  | None => NewWorkerPool 2
  end.

(** ** The zero-value Resource as a task *)







(** * Properties *)

(** ** Facts about [Pop] *)

Lemma Pop_from_miss excl wq i rest :
  Forall (fun k => k ∈ excl) rest ->
  Pop_from excl wq i rest = (Resource_zero, None, wq).
Proof.
  intros Hall. revert i. induction Hall as [|k rest Hk _ IH]; intros i; simpl.
  - reflexivity.
  - destruct (decide (k ∈ excl)); [apply IH | contradiction].
Qed.

Lemma Pop_from_hit excl wq i mid k post :
  Forall (fun x => x ∈ excl) mid -> k ∉ excl ->
  Pop_from excl wq i (mid ++ k :: post) =
    (match cache wq !! k with
     | None => (Resource_zero, None)
     | Some t => (cacheResource t, Some (perControllerStatus t))
     end,
     {| tasks := take (i + length mid) (tasks wq) ++ drop (S (i + length mid)) (tasks wq);
        cache := cache wq |}).
Proof.
  intros Hmid Hk. revert i. induction Hmid as [|x mid Hx _ IH]; intros i; simpl.
  - destruct (decide (k ∈ excl)); [contradiction|].
    rewrite Nat.add_0_r. destruct (cache wq !! k); reflexivity.
  - destruct (decide (x ∈ excl)); [|contradiction].
    rewrite IH. replace (S i + length mid)%nat with (i + S (length mid))%nat by lia.
    reflexivity.
Qed.

(** The scan either finds a first key outside the exclusion set or none. *)
Lemma scan_split (excl : gset lockResource) (l : list lockResource) :
  Forall (fun k => k ∈ excl) l \/
  exists mid k post, l = mid ++ k :: post /\ Forall (fun x => x ∈ excl) mid /\ k ∉ excl.
Proof.
  induction l as [|x l IH].
  - left. constructor.
  - destruct (decide (x ∈ excl)) as [Hx|Hx].
    + destruct IH as [IH|(mid & k & post & -> & Hmid & Hk)].
      * left. by constructor.
      * right. exists (x :: mid), k, post. split; [done|]. split; [by constructor|done].
    + right. exists [], x, l. split; [done|]. split; [constructor|done].
Qed.

Lemma Pop_miss excl wq :
  Forall (fun k => k ∈ excl) (tasks wq) -> Pop excl wq = (Resource_zero, None, wq).
Proof. apply Pop_from_miss. Qed.

Lemma Pop_hit excl wq mid k post :
  tasks wq = mid ++ k :: post ->
  Forall (fun x => x ∈ excl) mid -> k ∉ excl ->
  Pop excl wq =
    (match cache wq !! k with
     | None => (Resource_zero, None)
     | Some t => (cacheResource t, Some (perControllerStatus t))
     end,
     {| tasks := mid ++ post; cache := cache wq |}).
Proof.
  intros Ht Hmid Hk. unfold Pop. rewrite Ht at 1.
  rewrite (Pop_from_hit _ _ _ _ _ _ Hmid Hk). simpl. rewrite Ht.
  rewrite take_app_length. 
  replace (S (length mid)) with (length (mid ++ [k])) by (rewrite length_app; simpl; lia).
  replace (mid ++ k :: post) with ((mid ++ [k]) ++ post) by (by rewrite <- app_assoc).
  rewrite drop_app_length. reflexivity.
Qed.

Lemma Pop_cache excl wq : cache (Pop excl wq).2 = cache wq.
Proof.
  destruct (scan_split excl (tasks wq)) as [H|(mid & k & post & Ht & Hmid & Hk)].
  - by rewrite Pop_miss.
  - by rewrite (Pop_hit _ _ _ _ _ Ht Hmid Hk).
Qed.

(** [Pop] only ever shortens the pending sequence. *)
Lemma Pop_tasks_sublist excl wq : sublist (tasks (Pop excl wq).2) (tasks wq).
Proof.
  destruct (scan_split excl (tasks wq)) as [H|(mid & k & post & Ht & Hmid & Hk)].
  - by rewrite Pop_miss.
  - rewrite (Pop_hit _ _ _ _ _ Ht Hmid Hk), Ht. simpl.
    apply sublist_app; [done|]. by apply sublist_cons.
Qed.

(** ** Preservation of the queue invariants *)

Lemma Push_tasks target ctl progress h wq :
  tasks (Push target ctl progress (h, wq)).2 =
    match cache wq !! convert target with
    | Some _ => tasks wq
    | None => tasks wq ++ [convert target]
    end.
Proof. unfold Push. by destruct (cache wq !! convert target). Qed.

Lemma Push_cache_dom target ctl progress h wq k :
  is_Some (cache (Push target ctl progress (h, wq)).2 !! k) <->
  k = convert target \/ is_Some (cache wq !! k).
Proof.
  unfold Push. destruct (cache wq !! convert target) as [item|] eqn:E; simpl.
  - rewrite lookup_insert. case_decide as Hk.
    + split; [by left | by eauto].
    + split; [by right | by intros [->|?]].
  - rewrite lookup_insert. case_decide as Hk.
    + split; [by left | by eauto].
    + split; [by right | by intros [->|?]].
Qed.

Lemma Push_coherent target ctl progress h wq :
  coherent wq -> coherent (Push target ctl progress (h, wq)).2.
Proof.
  intros Hc k e. unfold Push.
  destruct (cache wq !! convert target) as [item|] eqn:E; simpl;
    rewrite lookup_insert; case_decide; subst; try apply Hc.
  - intros [= <-]. by apply Hc.
  - by intros [= <-].
Qed.

Lemma Pop_coherent excl wq : coherent wq -> coherent (Pop excl wq).2.
Proof. intros Hc k e. rewrite Pop_cache. apply Hc. Qed.

Lemma Delete_coherent target wq : coherent wq -> coherent (Delete target wq).
Proof.
  intros Hc k e. unfold Delete; simpl. rewrite lookup_delete.
  case_decide; [done | apply Hc].
Qed.

Lemma Push_NoDup target ctl progress h wq :
  pending_cached wq -> NoDup (tasks wq) ->
  NoDup (tasks (Push target ctl progress (h, wq)).2).
Proof.
  intros Hpc Hnd. rewrite Push_tasks.
  destruct (cache wq !! convert target) eqn:E; [done|].
  apply NoDup_app. split; [done|]. split; [|apply NoDup_singleton].
  intros x Hx ->%list_elem_of_singleton.
  destruct (Hpc _ Hx) as [? ?]. congruence.
Qed.

Lemma Push_pending_cached target ctl progress h wq :
  pending_cached wq -> pending_cached (Push target ctl progress (h, wq)).2.
Proof.
  intros Hpc k. rewrite Push_tasks, Push_cache_dom.
  destruct (cache wq !! convert target) eqn:E.
  - intros Hk. right. by apply Hpc.
  - rewrite elem_of_app, list_elem_of_singleton. intros [Hk| ->]; [right; by apply Hpc | by left].
Qed.

Lemma Pop_NoDup excl wq : NoDup (tasks wq) -> NoDup (tasks (Pop excl wq).2).
Proof. intros Hnd. eapply sublist_NoDup; [done | apply Pop_tasks_sublist]. Qed.

Lemma Pop_pending_cached excl wq : pending_cached wq -> pending_cached (Pop excl wq).2.
Proof.
  intros Hpc k Hk. rewrite Pop_cache. apply Hpc.
  eapply elem_of_sublist; [done | apply Pop_tasks_sublist].
Qed.

Lemma Delete_pending_cached target wq :
  convert target ∉ tasks wq -> pending_cached wq -> pending_cached (Delete target wq).
Proof.
  intros Hn Hpc k Hk. unfold Delete in *; simpl in *.
  rewrite lookup_delete_ne by (intros <-; contradiction). by apply Hpc.
Qed.

Lemma guarded_invariant ops st :
  deletes_guarded ops st = true ->
  pending_cached st.2 -> NoDup (tasks st.2) ->
  pending_cached (qrun ops st).2 /\ NoDup (tasks (qrun ops st).2).
Proof.
  revert st. induction ops as [|o ops IH]; intros [h wq] Hg Hpc Hnd; simpl in *.
  - done.
  - apply andb_true_iff in Hg as [Ho Hg].
    apply IH; [done| |]; destruct o as [t c p|excl|t]; simpl.
    + by apply Push_pending_cached.
    + by apply Pop_pending_cached.
    + apply Delete_pending_cached; [|done]. by apply bool_decide_eq_true in Ho.
    + by apply Push_NoDup.
    + by apply Pop_NoDup.
    + done.
Qed.

(** ** The pending sequence: duplicates, deleted keys, what Pop removes *)

(** C5, as stated, fails: after Push, Delete, Push of one resource its key
    is pending twice. *)
Lemma C5_counterexample :
  let r := res "reviews" "1" in
  tasks (qrun [q_Push r 1%positive nil; q_Delete r; q_Push r 1%positive nil] qinit).2
    = [convert r; convert r]
  /\ ~ NoDup (tasks (qrun [q_Push r 1%positive nil; q_Delete r; q_Push r 1%positive nil] qinit).2).
Proof.
  assert (E : tasks (qrun [q_Push (res "reviews" "1") 1%positive nil; q_Delete (res "reviews" "1");
                           q_Push (res "reviews" "1") 1%positive nil] qinit).2
              = [convert (res "reviews" "1"); convert (res "reviews" "1")])
    by (vm_compute; reflexivity).
  split; [exact E|]. rewrite E. intros Hnd.
  apply NoDup_cons in Hnd as [Hn _]. apply Hn. apply list_elem_of_singleton. reflexivity.
Qed.

(** C5 (amended): in every state produced by an interleaving of Push, Pop
    and Delete on a new queue in which each Delete hits a key that is not
    pending at that moment, every key is pending at most once, and each
    Push leaves the sequence alone when the key is cached and appends the
    key once when it is not. *)
Theorem C5_pending_keys_unique ops :
  deletes_guarded ops qinit = true ->
  NoDup (tasks (qrun ops qinit).2)
  /\ forall target ctl progress,
       let st := qrun ops qinit in
       tasks (Push target ctl progress st).2 =
         if decide (is_Some (cache st.2 !! convert target)) then tasks st.2
         else tasks st.2 ++ [convert target].
Proof.
  intros Hg. split.
  - apply (guarded_invariant ops qinit Hg); simpl.
    + intros k Hk. by apply elem_of_nil in Hk.
    + constructor.
  - intros target ctl progress st. destruct st as [h wq] eqn:E. rewrite Push_tasks. simpl.
    destruct (cache wq !! convert target) eqn:Ec.
    + rewrite decide_True; [done | by eexists].
    + rewrite decide_False; [done | by intros [? ?]].
Qed.

Lemma C5_pending_keys_unique_witness :
  let r := res "reviews" "1" in
  let ops := [q_Push r 1%positive nil; q_Pop ∅; q_Delete r; q_Push r 2%positive nil] in
  deletes_guarded ops qinit = true /\ NoDup (tasks (qrun ops qinit).2).
Proof.
  split; [vm_compute; reflexivity|].
  apply (C5_pending_keys_unique
           [q_Push (res "reviews" "1") 1%positive nil; q_Pop ∅;
            q_Delete (res "reviews" "1"); q_Push (res "reviews" "1") 2%positive nil]).
  vm_compute; reflexivity.
Defined.

(** C6, as stated, fails: with the deleted key [a] pending before the live
    key [b], Pop returns the zero Resource and nil although [b] is a later
    key, not excluded, with a cache entry. *)
Lemma C6_counterexample :
  let a := res "a" "1" in
  let b := res "b" "1" in
  let wq := (qrun [q_Push a 1%positive nil; q_Push b 1%positive nil; q_Delete a] qinit).2 in
  tasks wq = [convert a; convert b]
  /\ cache wq !! convert a = None
  /\ (exists e, cache wq !! convert b = Some e /\ cacheResource e = b)
  /\ (Pop ∅ wq).1 = (Resource_zero, None)
  /\ (Pop ∅ wq).1.1 <> b.
Proof. vm_compute. repeat split; eauto. discriminate. Qed.

(** C6 (amended): when the first pending key outside the exclusion set has
    no cache entry, Pop removes that key from the sequence and returns the
    zero Resource and nil at once; the keys after it stay pending, and the
    first of them that is not excluded and has a cache entry is returned by
    the next Pop. *)
Theorem C6_pop_deleted_key excl wq mid k post :
  tasks wq = mid ++ k :: post ->
  Forall (fun x => x ∈ excl) mid ->
  k ∉ excl ->
  cache wq !! k = None ->
  Pop excl wq = (Resource_zero, None, {| tasks := mid ++ post; cache := cache wq |})
  /\ forall mid2 k2 post2 t2,
       post = mid2 ++ k2 :: post2 ->
       Forall (fun x => x ∈ excl) mid2 -> k2 ∉ excl ->
       cache wq !! k2 = Some t2 ->
       Pop excl (Pop excl wq).2
         = (cacheResource t2, Some (perControllerStatus t2),
            {| tasks := mid ++ mid2 ++ post2; cache := cache wq |}).
Proof.
  intros Ht Hmid Hk Hc.
  assert (HP : Pop excl wq = (Resource_zero, None, {| tasks := mid ++ post; cache := cache wq |})).
  { rewrite (Pop_hit _ _ _ _ _ Ht Hmid Hk), Hc. reflexivity. }
  split; [exact HP|].
  intros mid2 k2 post2 t2 Hpost Hmid2 Hk2 Hc2. rewrite HP. simpl.
  rewrite (Pop_hit excl _ (mid ++ mid2) k2 post2).
  - simpl. rewrite Hc2. by rewrite <- app_assoc.
  - simpl. rewrite Hpost. by rewrite <- app_assoc.
  - by apply Forall_app.
  - done.
Qed.

Lemma C6_pop_deleted_key_witness :
  let a := res "a" "1" in
  let b := res "b" "1" in
  let wq := (qrun [q_Push a 1%positive nil; q_Push b 1%positive nil; q_Delete a] qinit).2 in
  Pop ∅ wq = (Resource_zero, None, {| tasks := [convert b]; cache := cache wq |})
  /\ (Pop ∅ (Pop ∅ wq).2).1.1 = b.
Proof.
  intros a b wq.
  pose proof (C6_pop_deleted_key ∅ wq [] (convert a) [convert b]) as H.
  destruct H as [H1 H2].
  - vm_compute; reflexivity.
  - constructor.
  - apply not_elem_of_empty.
  - vm_compute; reflexivity.
  - split; [exact H1|].
    rewrite (H2 [] (convert b) [] {| cacheResource := b; perControllerStatus := 2%positive |}).
    + reflexivity.
    + reflexivity.
    + constructor.
    + apply not_elem_of_empty.
    + vm_compute; reflexivity.
Defined.

(** C7, as stated, fails: Pop returns the task of [r] and the state it
    leaves still has the cache entry of [r] although the key is gone from the
    sequence; a Push made then (it needs the queue lock only) sees the entry
    and merges into it without appending the key. *)
Lemma C7_counterexample :
  let r := res "reviews" "1" in
  let st := Push r ctlA (opaque "U1") qinit in
  let popped := Pop ∅ st.2 in
  popped.1.1 = r
  /\ tasks popped.2 = []
  /\ is_Some (cache popped.2 !! convert r)
  /\ tasks (Push r ctlB (opaque "U2") (st.1, popped.2)).2 = []
  /\ (exists m, popped.1.2 = Some m
        /\ deref (Push r ctlB (opaque "U2") (st.1, popped.2)).1 m
           = {[ctlA := opaque "U1"; ctlB := opaque "U2"]}).
Proof.
  split; [vm_compute; reflexivity|]. split; [vm_compute; reflexivity|].
  split; [vm_compute; eauto|]. split; [vm_compute; reflexivity|].
  exists 1%positive. split; [vm_compute; reflexivity|].
  apply map_eq. intros c. vm_compute. reflexivity.
Qed.

(** C7 (amended): Pop removes the returned key from the pending sequence
    only and leaves the cache map as it was, so that a Push for that key made
    right after Pop merges into the entry and does not append the key; the
    entry is removed by the separate Delete that the worker calls on the
    popped resource, after which the key has no cache entry. *)
Theorem C7_pop_keeps_cache_delete_drops excl wq :
  cache (Pop excl wq).2 = cache wq
  /\ (forall mid k post t,
        tasks wq = mid ++ k :: post -> Forall (fun x => x ∈ excl) mid -> k ∉ excl ->
        cache wq !! k = Some t ->
        Pop excl wq = (cacheResource t, Some (perControllerStatus t),
                       {| tasks := mid ++ post; cache := cache wq |})
        /\ forall target ctl progress h,
             convert target = k ->
             tasks (Push target ctl progress (h, (Pop excl wq).2)).2 = mid ++ post)
  /\ (forall target, cache (Delete target (Pop excl wq).2) !! convert target = None).
Proof.
  split; [apply Pop_cache|]. split.
  - intros mid k post t Ht Hmid Hk Hc.
    assert (HP : Pop excl wq = (cacheResource t, Some (perControllerStatus t),
                                {| tasks := mid ++ post; cache := cache wq |})).
    { rewrite (Pop_hit _ _ _ _ _ Ht Hmid Hk), Hc. reflexivity. }
    split; [exact HP|].
    intros target ctl progress h Hkey. rewrite Push_tasks, HP. simpl.
    by rewrite Hkey, Hc.
  - intros target. unfold Delete; simpl. apply lookup_delete_eq.
Qed.

Lemma C7_pop_keeps_cache_delete_drops_witness :
  let r := res "reviews" "1" in
  let wq := (Push r ctlA nil qinit).2 in
  cache (Pop ∅ wq).2 = cache wq
  /\ is_Some (cache (Pop ∅ wq).2 !! convert r)
  /\ cache (Delete r (Pop ∅ wq).2) !! convert r = None.
Proof.
  intros r wq.
  pose proof (C7_pop_keeps_cache_delete_drops ∅ wq) as (Hc & _ & Hd).
  split; [exact Hc|]. split; [|exact (Hd r)].
  rewrite Hc. vm_compute. eauto.
Defined.




(** ** Coalescing *)












(** ** The worker body *)

Lemma merge_all_spec fn x work : merge_all fn x work = (merged fn x work, fn_calls fn x work).
Proof.
  revert x. induction work as [|[c i] work IH]; intros x; simpl; [done|].
  rewrite IH. reflexivity.
Qed.

Lemma fn_calls_no_write fn x work : no_write (fn_calls fn x work).
Proof.
  revert x. induction work as [|[c i] work IH]; intros x; simpl; constructor; [done | apply IH].
Qed.

Lemma fn_calls_no_SetObservedGeneration fn x work :
  no_SetObservedGeneration (fn_calls fn x work).
Proof.
  revert x. induction work as [|[c i] work IH]; intros x; simpl; constructor; [done | apply IH].
Qed.

Lemma fn_calls_no_panic fn x work : panic ∉ fn_calls fn x work.
Proof.
  revert x. induction work as [|[c i] work IH]; intros x; simpl.
  - apply not_elem_of_nil.
  - rewrite elem_of_cons. intros [?|?]; [done | by eapply IH].
Qed.

Lemma process_dropped get GetOGProvider fn target order :
  (get target = None \/
   exists cfg, get target = Some cfg /\ FormatInt10 (Generation cfg) <> R_Generation target) ->
  process get GetOGProvider fn target order = [get_call target].
Proof.
  intros [Hnil|(cfg & Hget & Hgen)]; unfold process; rewrite ?Hnil, ?Hget; [done|].
  by rewrite decide_False.
Qed.

(** C3: when the getter answers nil, or a config whose generation printed
    in decimal differs from the generation recorded in the task, the run of
    the worker body consists of the getter call alone, so the writer is not
    invoked, whatever the pending updates and the order they are visited in;
    the worker then goes on to clear its in-flight mark and the queue is left
    as it was, so the task is not queued again. *)
Theorem C3_stale_or_absent_not_written get GetOGProvider fn target :
  (get target = None \/
   exists cfg, get target = Some cfg /\ FormatInt10 (Generation cfg) <> R_Generation target) ->
  (forall work calls,
     worker_body get GetOGProvider fn target work calls ->
     calls = [get_call target] /\ no_write calls)
  /\ (forall s i work order,
        workers s !! i = Some (AtGet target work) ->
        exists s',
          exec (a_worker i {| o_get := get; o_GetOGProvider := GetOGProvider;
                              o_fn := fn; o_order := order |}) s
            = Some (s', Some (target, [get_call target]))
          /\ q s' = q s /\ heap s' = heap s
          /\ workers s' = <[i := AtUnmark target]> (workers s)).
Proof.
  intros Hdrop. split.
  - intros work calls (order & _ & ->).
    rewrite (process_dropped _ _ _ _ _ Hdrop). split; [done|].
    constructor; [done | constructor].
  - intros s i work order Hw. simpl. unfold worker_move. rewrite Hw. simpl.
    rewrite (process_dropped _ _ _ _ _ Hdrop). eexists. split; [reflexivity|]. done.
Qed.

Lemma C3_stale_or_absent_not_written_witness :
  let target := res "reviews" "2" in
  (forall work calls,
     worker_body get_istio og_lookup fn_keep target work calls ->
     calls = [get_call target] /\ no_write calls)
  /\ (forall work calls,
        worker_body get_absent og_lookup fn_keep target work calls ->
        calls = [get_call target] /\ no_write calls).
Proof.
  split.
  - apply (C3_stale_or_absent_not_written get_istio og_lookup fn_keep (res "reviews" "2")).
    right. exists cfg_istio. split; [reflexivity|]. vm_compute. discriminate.
  - apply (C3_stale_or_absent_not_written get_absent og_lookup fn_keep (res "reviews" "2")).
    left. reflexivity.
Defined.

(** C8, as stated, fails: when the provider lookup reports an error the
    worker logs the warning and goes on to merge and write, but no
    SetObservedGeneration call is made: the run below writes the nil provider
    that came with the error. *)
Lemma C8_counterexample :
  let target := res "reviews" "1" in
  let calls := process get_foreign og_lookup fn_keep target [(ctlA, opaque "U1")] in
  og_lookup (Status cfg_foreign) = (nil, Some "cannot cast to GenerationProvider")
  /\ calls = [get_call target; Warnf_call "cannot cast to GenerationProvider";
              fn_call ctlA nil (opaque "U1"); write_call cfg_foreign nil]
  /\ (SetObservedGeneration_call nil 1 ∉ calls)
  /\ no_SetObservedGeneration calls.
Proof.
  split; [reflexivity|]. split; [vm_compute; reflexivity|]. split.
  - vm_compute. intros H. repeat (apply elem_of_cons in H as [H|H]; [discriminate|]).
    by apply elem_of_nil in H.
  - vm_compute. repeat constructor.
Qed.

(** C8 (amended): when the fetched config passes the generation check and
    the provider lookup returns an error, the failure is not fatal: the worker
    logs a warning, makes no SetObservedGeneration call, folds the pending
    merge functions over the provider value returned with the error and
    invokes the writer with the fetched config and the result. *)
Theorem C8_missing_provider_not_fatal get GetOGProvider fn target cfg x e order :
  get target = Some cfg ->
  FormatInt10 (Generation cfg) = R_Generation target ->
  GetOGProvider (Status cfg) = (x, Some e) ->
  let calls := process get GetOGProvider fn target order in
  calls = get_call target :: Warnf_call e :: fn_calls fn x order
            ++ [write_call cfg (merged fn x order)]
  /\ no_SetObservedGeneration calls
  /\ panic ∉ calls.
Proof.
  intros Hget Hgen Hog calls.
  assert (E : calls = get_call target :: Warnf_call e :: fn_calls fn x order
                        ++ [write_call cfg (merged fn x order)]).
  { subst calls. unfold process. rewrite Hget, decide_True by done.
    rewrite Hog, merge_all_spec. reflexivity. }
  split; [exact E|]. rewrite E. split.
  - constructor; [done|]. constructor; [done|]. apply Forall_app. split.
    + apply fn_calls_no_SetObservedGeneration.
    + by constructor.
  - rewrite !elem_of_cons, elem_of_app, list_elem_of_singleton.
    intros [?|[?|[?|?]]]; try done. by eapply fn_calls_no_panic.
Qed.

Lemma C8_missing_provider_not_fatal_witness :
  let target := res "reviews" "1" in
  let calls := process get_foreign og_lookup fn_keep target [(ctlA, opaque "U1")] in
  calls = get_call target :: Warnf_call "cannot cast to GenerationProvider"
            :: fn_calls fn_keep nil [(ctlA, opaque "U1")]
            ++ [write_call cfg_foreign (merged fn_keep nil [(ctlA, opaque "U1")])]
  /\ no_SetObservedGeneration calls
  /\ panic ∉ calls.
Proof.
  apply (C8_missing_provider_not_fatal get_foreign og_lookup fn_keep (res "reviews" "1")
           cfg_foreign nil "cannot cast to GenerationProvider" [(ctlA, opaque "U1")]).
  - reflexivity.
  - vm_compute; reflexivity.
  - reflexivity.
Defined.

(** C9, as stated, fails: the writer receives the provider itself, not the
    status the provider unwraps to. *)
Lemma C9_counterexample :
  let target := res "reviews" "1" in
  let x := {| IstioStatus := 9%positive |} in
  let calls := process get_istio og_lookup fn_keep target [(ctlA, opaque "U1")] in
  calls = [get_call target; SetObservedGeneration_call (Provider_ptr x) 1;
           fn_call ctlA (Provider_ptr x) (opaque "U1"); write_call cfg_istio (Provider_ptr x)]
  /\ Unwrap x = IstioStatus_ptr 9%positive
  /\ write_call cfg_istio (Unwrap x) ∉ calls.
Proof.
  split; [vm_compute; reflexivity|]. split; [reflexivity|].
  vm_compute. intros H. repeat (apply elem_of_cons in H as [H|H]; [discriminate|]).
  by apply elem_of_nil in H.
Qed.

Lemma SetObservedGeneration_lookup i gen objs s :
  objs !! IstioStatus i = Some s ->
  ObservedGeneration <$> (SetObservedGeneration i gen objs !! IstioStatus i) = Some gen.
Proof.
  intros Hs. unfold SetObservedGeneration. rewrite lookup_alter_eq, Hs. reflexivity.
Qed.

(** C9 (amended): when the fetched config passes the generation check and
    the provider lookup succeeds with a provider [x], the worker calls
    SetObservedGeneration on [x] with the fetched generation (for an
    [IstioGenerationProvider] this stores it in the status object), folds the
    merge functions of the pending submitters over [x] in the order the map
    yields them, and invokes the writer once, last, with the fetched config
    and the final provider value itself; the worker never unwraps it. *)
Theorem C9_write_receives_provider get GetOGProvider fn target cfg x work calls :
  get target = Some cfg ->
  FormatInt10 (Generation cfg) = R_Generation target ->
  GetOGProvider (Status cfg) = (x, None) ->
  x <> nil ->
  worker_body get GetOGProvider fn target work calls ->
  (exists order,
     order ≡ₚ map_to_list work
     /\ calls = get_call target :: SetObservedGeneration_call x (Generation cfg)
                  :: fn_calls fn x order ++ [write_call cfg (merged fn x order)]
     /\ no_write (fn_calls fn x order))
  /\ (forall i objs s, x = Provider_ptr i -> objs !! IstioStatus i = Some s ->
        ObservedGeneration <$> (SetObservedGeneration i (Generation cfg) objs !! IstioStatus i)
          = Some (Generation cfg)).
Proof.
  intros Hget Hgen Hog Hx (order & Hperm & ->). split.
  - exists order. split; [done|]. split; [|apply fn_calls_no_write].
    unfold process. rewrite Hget, decide_True by done. rewrite Hog, merge_all_spec.
    by destruct x.
  - intros i objs s _ Hs. by eapply SetObservedGeneration_lookup.
Qed.

Lemma C9_write_receives_provider_witness :
  let target := res "reviews" "1" in
  let x := Provider_ptr {| IstioStatus := 9%positive |} in
  let work : gmap Controller any := {[ctlA := opaque "U1"]} in
  exists order,
    order ≡ₚ map_to_list work
    /\ process get_istio og_lookup fn_keep target [(ctlA, opaque "U1")]
       = get_call target :: SetObservedGeneration_call x 1
           :: fn_calls fn_keep x order ++ [write_call cfg_istio (merged fn_keep x order)]
    /\ no_write (fn_calls fn_keep x order).
Proof.
  intros target x work.
  refine (proj1 (C9_write_receives_provider get_istio og_lookup fn_keep target cfg_istio x work
            (process get_istio og_lookup fn_keep target [(ctlA, opaque "U1")]) _ _ _ _ _)).
  - reflexivity.
  - vm_compute; reflexivity.
  - reflexivity.
  - discriminate.
  - exists [(ctlA, opaque "U1")]. split; [|reflexivity].
    subst work. by rewrite map_to_list_singleton.
Defined.

(** ** The pool: preservation of the invariants *)

Lemma exec_all_run acts s s' ls : exec_all acts s = Some (s', ls) -> run s acts ls s'.
Proof.
  revert s ls. induction acts as [|a acts IH]; intros s ls H; simpl in H.
  - injection H as <- <-. constructor.
  - destruct (order_okb a s) eqn:Ho; [|done].
    destruct (exec a s) as [[s1 l]|] eqn:He; [|done].
    destruct (exec_all acts s1) as [[s2 ls']|] eqn:Hr; [|done].
    injection H as <- <-. econstructor; [|by apply IH].
    split; [|done]. unfold order_okb in Ho. unfold order_ok.
    destruct a; try done. destruct (workers s !! i) as [[]|]; try done.
    by apply bool_decide_eq_true in Ho.
Qed.

Lemma lookup_set_worker (ws : list pc) i w' j wj :
  <[i := w']> ws !! j = Some wj ->
  (j = i /\ wj = w') \/ (j <> i /\ ws !! j = Some wj).
Proof.
  intros H. destruct (decide (j = i)) as [->|Hne].
  - left. split; [done|]. 
    assert (Hlt : (i < length ws)%nat).
    { apply lookup_lt_Some in H. by rewrite length_insert in H. }
    rewrite list_lookup_insert_eq in H by done. congruence.
  - right. split; [done|]. by rewrite list_lookup_insert_ne in H.
Qed.

Lemma lookup_spawn (ws : list pc) j wj :
  (ws ++ [AtTop]) !! j = Some wj -> ws !! j = Some wj \/ wj = AtTop.
Proof.
  intros H. apply lookup_app_Some in H as [H|[_ H]]; [by left|].
  right. destruct (j - length ws)%nat; simpl in H; [congruence | done].
Qed.

Lemma live_count_insert ws i w w' :
  ws !! i = Some w ->
  (live_count (<[i := w']> ws) + (if live w then 1 else 0)
   = live_count ws + (if live w' then 1 else 0))%nat.
Proof.
  revert i. induction ws as [|x ws IH]; intros i H; [done|].
  destruct i as [|i]; simpl in *.
  - injection H as ->. lia.
  - specialize (IH i H). lia.
Qed.

Lemma live_count_spawn ws : live_count (ws ++ [AtTop]) = S (live_count ws).
Proof. induction ws as [|x ws IH]; simpl; [done|]. rewrite IH. lia. Qed.

(** What a returned task tells about the exclusion set. *)
Lemma Pop_returns excl wq target work wq' :
  coherent wq -> Pop excl wq = (target, work, wq') ->
  coherent wq'
  /\ (work = None -> target = Resource_zero)
  /\ (work <> None -> convert target ∉ excl).
Proof.
  intros Hc HP. split; [|split].
  - replace wq' with (Pop excl wq).2 by (by rewrite HP). by apply Pop_coherent.
  - destruct (scan_split excl (tasks wq)) as [H|(mid & k & post & Ht & Hmid & Hk)].
    + rewrite Pop_miss in HP by done. congruence.
    + rewrite (Pop_hit _ _ _ _ _ Ht Hmid Hk) in HP.
      destruct (cache wq !! k); intros ->; congruence.
  - destruct (scan_split excl (tasks wq)) as [H|(mid & k & post & Ht & Hmid & Hk)].
    + rewrite Pop_miss in HP by done. intros Hw. congruence.
    + rewrite (Pop_hit _ _ _ _ _ Ht Hmid Hk) in HP.
      destruct (cache wq !! k) as [t|] eqn:E; intros Hw; [|congruence].
      injection HP as <- <- <-. by rewrite (Hc _ _ E).
Qed.

Ltac split_lookup H :=
  let Heq := fresh "Heq" in
  apply lookup_set_worker in H as [[-> Heq]|[? H]]; [try subst|].

(** A queue operation changes nothing but the queue and the heap. *)
Lemma pool_inv_queue s q' h' :
  pool_inv s -> coherent q' ->
  pool_inv {| q := q'; heap := h'; closing := closing s; workerCount := workerCount s;
              maxWorkers := maxWorkers s; currentlyWorking := currentlyWorking s;
              lock := lock s; workers := workers s |}.
Proof. intros [] Hc. by constructor. Qed.

Lemma pool_inv_cancel s :
  pool_inv s ->
  pool_inv {| q := q s; heap := heap s; closing := true; workerCount := workerCount s;
              maxWorkers := maxWorkers s; currentlyWorking := currentlyWorking s;
              lock := lock s; workers := workers s |}.
Proof. intros []. by constructor. Qed.

Lemma pool_inv_spawn s :
  pool_inv s -> lock s = false -> workerCount s < maxWorkers s ->
  pool_inv {| q := q s; heap := heap s; closing := closing s;
              workerCount := uint_inc (workerCount s);
              maxWorkers := maxWorkers s; currentlyWorking := currentlyWorking s;
              lock := false; workers := workers s ++ [AtTop] |}.
Proof.
  intros [Hcoh Hlocked Hone Hfree Hnz Hmark Hexcl Hcnt Hbnd Hmax] Hl Hlt.
  assert (Hnh : forall i w, workers s !! i = Some w -> holding w = false).
  { intros i w Hw. destruct (holding w) eqn:E; [|done].
    rewrite (Hlocked _ _ Hw E) in Hl. done. }
  constructor; simpl; try done.
  - intros i w [Hw| ->]%lookup_spawn Hh; [|done]. rewrite (Hnh _ _ Hw) in Hh. done.
  - intros i j wi wj [Hi| ->]%lookup_spawn _ Hh; [|done]. rewrite (Hnh _ _ Hi) in Hh. done.
  - intros i target work [Hi|?]%lookup_spawn; [by eapply Hfree | done].
  - intros i w target [Hi| ->]%lookup_spawn; [by eapply Hnz | done].
  - intros i w k [Hi| ->]%lookup_spawn; [by eapply Hmark | done].
  - intros i j wi wj k Hi Hj Hki Hkj.
    apply lookup_app_Some in Hi as [Hi|[_ Hi]]; apply lookup_app_Some in Hj as [Hj|[_ Hj]].
    + by eapply Hexcl.
    + destruct (j - length (workers s))%nat; simpl in Hj; [|done].
      injection Hj as <-. done.
    + destruct (i - length (workers s))%nat; simpl in Hi; [|done].
      injection Hi as <-. done.
    + destruct (i - length (workers s))%nat; simpl in Hi; [|done].
      injection Hi as <-. done.
  - rewrite live_count_spawn. unfold uint_inc, uint_modulus, uint_range, uint_modulus in *.
    rewrite Z.mod_small; lia.
  - unfold uint_inc, uint_modulus, uint_range, uint_modulus in *.
    rewrite Z.mod_small; lia.
Qed.

(** A move of worker [i] while no other worker holds the pool lock. *)
Lemma pool_inv_move s i w w' q' h' cl' cw' lock' cnt' :
  pool_inv s -> workers s !! i = Some w ->
  (forall j wj, j <> i -> workers s !! j = Some wj -> holding wj = false) ->
  coherent q' ->
  (holding w' = true -> lock' = true) ->
  (forall target work, w' = AtDelete target work -> convert target ∉ cw') ->
  (forall target, carried w' = Some target -> target <> Resource_zero) ->
  (forall k, inflight w' = Some k -> k ∈ cw') ->
  (forall j wj k, j <> i -> workers s !! j = Some wj -> inflight wj = Some k -> k ∈ cw') ->
  (forall j wj k, j <> i -> workers s !! j = Some wj -> inflight wj = Some k ->
     inflight w' <> Some k) ->
  cnt' = Z.of_nat (live_count (<[i := w']> (workers s))) ->
  cnt' <= maxWorkers s ->
  pool_inv {| q := q'; heap := h'; closing := cl'; workerCount := cnt';
              maxWorkers := maxWorkers s; currentlyWorking := cw';
              lock := lock'; workers := set_worker i w' s |}.
Proof.
  intros [Hcoh Hlocked Hone Hfree Hnz Hmark Hexcl Hcnt Hbnd Hmax]
         Hw Hoth Hq Hlk Hdel Hcar Hin Hkeep Hnew Hc Hb.
  unfold set_worker. constructor; simpl; try done.
  - intros j wj Hj Hh. split_lookup Hj; [by apply Hlk|].
    rewrite (Hoth _ _ H Hj) in Hh. done.
  - intros j1 j2 w1 w2 H1 H2 Hh1 Hh2. split_lookup H1; split_lookup H2; try done.
    + rewrite (Hoth _ _ H H2) in Hh2. done.
    + rewrite (Hoth _ _ H H1) in Hh1. done.
    + rewrite (Hoth _ _ H H1) in Hh1. done.
  - intros j target work Hj. split_lookup Hj; [by eapply Hdel|].
    pose proof (Hoth _ _ H Hj). done.
  - intros j wj target Hj Hc'. split_lookup Hj; [by apply Hcar | by eapply Hnz].
  - intros j wj k Hj Hk. split_lookup Hj; [by apply Hin | by eapply Hkeep].
  - intros j1 j2 w1 w2 k H1 H2 Hk1 Hk2. split_lookup H1; split_lookup H2; try done.
    + exfalso. by eapply Hnew.
    + exfalso. by eapply Hnew.
    + by eapply Hexcl.
Qed.

Lemma no_holder_unlocked s :
  pool_inv s -> lock s = false ->
  forall j wj, workers s !! j = Some wj -> holding wj = false.
Proof.
  intros Hinv Hl j wj Hj. destruct (holding wj) eqn:E; [|done].
  rewrite (inv_locked s Hinv _ _ Hj E) in Hl. done.
Qed.

Lemma no_other_holder s i w :
  pool_inv s -> workers s !! i = Some w -> holding w = true ->
  forall j wj, j <> i -> workers s !! j = Some wj -> holding wj = false.
Proof.
  intros Hinv Hi Hh j wj Hne Hj. destruct (holding wj) eqn:E; [|done].
  exfalso. apply Hne. by eapply (inv_one_holder s Hinv).
Qed.

Lemma live_count_same ws i w w' :
  ws !! i = Some w -> live w = live w' -> live_count (<[i := w']> ws) = live_count ws.
Proof.
  intros Hw Hl. pose proof (live_count_insert _ _ _ w' Hw) as H. rewrite Hl in H. lia.
Qed.

Lemma worker_move_inv i o s s' l :
  worker_move i o s = Some (s', l) -> pool_inv s -> pool_inv s'.
Proof.
  unfold worker_move. intros Hm Hinv.
  destruct (workers s !! i) as [w|] eqn:Hw; [|done].
  destruct w as [| |target work|target work|target|].
  - (* AtTop *)
    destruct (lock s) eqn:Hl; [done|].
    pose proof (no_holder_unlocked s Hinv Hl) as Hnh.
    destruct (closing s || bool_decide (Length (q s) = 0%nat)); injection Hm as <- <-.
    + assert (Hc : (live_count (<[i := Exited]> (workers s)) + 1 = live_count (workers s))%nat).
      { pose proof (live_count_insert _ _ _ Exited Hw) as H. simpl in H. lia. }
      pose proof (inv_count s Hinv) as Hcnt. pose proof (inv_bound s Hinv) as Hb.
      pose proof (inv_max s Hinv) as Hmax. unfold uint_range in Hmax.
      assert (Hd : uint_dec (workerCount s) = Z.of_nat (live_count (<[i := Exited]> (workers s)))).
      { unfold uint_dec. rewrite Z.mod_small; lia. }
      eapply pool_inv_move; eauto using inv_coherent; try done.
      * intros j wj k _ Hj Hk. by eapply inv_marked.
      * lia.
    + eapply pool_inv_move; eauto using inv_coherent; try done.
      * intros j wj k _ Hj Hk. by eapply inv_marked.
      * rewrite (live_count_same _ _ AtTop) by done. by apply inv_count.
      * by apply inv_bound.
  - (* AtPop *)
    destruct (Pop (currentlyWorking s) (q s)) as [[target work] q'] eqn:HP.
    destruct (Pop_returns _ _ _ _ _ (inv_coherent s Hinv) HP) as (Hq' & Hnone & Hsome).
    pose proof (no_other_holder s i AtPop Hinv Hw eq_refl) as Hoth.
    destruct (decide (target = Resource_zero)) as [Hz|Hz]; injection Hm as <- <-.
    + eapply pool_inv_move; eauto; try done.
      * intros j wj k _ Hj Hk. by eapply inv_marked.
      * rewrite (live_count_same _ _ AtPop) by done. by apply inv_count.
      * by apply inv_bound.
    + eapply pool_inv_move; eauto; try done.
      * intros _. by eapply inv_locked.
      * intros t wk [= <- <-]. apply Hsome. intros ->. by apply Hz, Hnone.
      * intros t [= <-]. done.
      * intros j wj k _ Hj Hk. by eapply inv_marked.
      * rewrite (live_count_same _ _ AtPop) by done. by apply inv_count.
      * by apply inv_bound.
  - (* AtDelete *)
    pose proof (no_other_holder s i _ Hinv Hw eq_refl) as Hoth.
    injection Hm as <- <-.
    eapply pool_inv_move; eauto; try done.
    + apply Delete_coherent, (inv_coherent s Hinv).
    + intros t [= <-]. by eapply (inv_nonzero s Hinv).
    + intros k [= <-]. apply elem_of_union_l, elem_of_singleton. done.
    + intros j wj k _ Hj Hk. apply elem_of_union_r. by eapply inv_marked.
    + intros j wj k _ Hj Hk [= <-].
      apply (inv_popped_free s Hinv _ _ _ Hw). by eapply inv_marked.
    + rewrite (live_count_same _ _ (AtDelete target work)) by done. by apply inv_count.
    + by apply inv_bound.
  - (* AtGet *)
    injection Hm as <- <-.
    destruct Hinv as [Hcoh Hlocked Hone Hfree Hnz Hmark Hexcl Hcnt Hbnd Hmax].
    unfold set_worker. constructor; simpl; try done.
    + intros j wj Hj Hh. split_lookup Hj; [done | by eapply Hlocked].
    + intros j1 j2 w1 w2 H1 H2 Hh1 Hh2. split_lookup H1; split_lookup H2; try done.
      by eapply Hone.
    + intros j t wk Hj. split_lookup Hj; [done | by eapply Hfree].
    + intros j wj t Hj Hc. split_lookup Hj; [|by eapply Hnz].
      injection Hc as <-. by eapply (Hnz _ _ _ Hw).
    + intros j wj k Hj Hk. split_lookup Hj; [|by eapply Hmark].
      by eapply (Hmark _ _ _ Hw).
    + intros j1 j2 w1 w2 k H1 H2 Hk1 Hk2. split_lookup H1; split_lookup H2; try done.
      * symmetry. by eapply (Hexcl _ _ _ _ _ H2 Hw).
      * by eapply (Hexcl _ _ _ _ _ H1 Hw).
      * by eapply Hexcl.
    + by rewrite (live_count_same _ _ (AtGet target work)).
  - (* AtUnmark *)
    destruct (lock s) eqn:Hl; [done|].
    pose proof (no_holder_unlocked s Hinv Hl) as Hnh.
    injection Hm as <- <-.
    eapply pool_inv_move; eauto using inv_coherent; try done.
    + intros j wj k Hne Hj Hk. apply elem_of_difference. split; [by eapply inv_marked|].
      intros ->%elem_of_singleton. apply Hne.
      by eapply (inv_exclusive s Hinv _ _ _ _ _ Hj Hw).
    + rewrite (live_count_same _ _ (AtUnmark target)) by done. by apply inv_count.
    + by apply inv_bound.
  - done.
Qed.

Lemma exec_inv a s s' l : exec a s = Some (s', l) -> pool_inv s -> pool_inv s'.
Proof.
  intros He Hinv. destruct a as [target ctl progress| |target| |i o]; unfold exec in He.
  - destruct (Push target ctl progress (heap s, q s)) as [h' q'] eqn:HP.
    injection He as <- <-. apply pool_inv_queue; [done|].
    replace q' with (Push target ctl progress (heap s, q s)).2 by (by rewrite HP).
    apply Push_coherent, (inv_coherent s Hinv).
  - destruct (lock s) eqn:Hl; [done|].
    destruct (bool_decide (workerCount s >= maxWorkers s)) eqn:Hge;
      destruct (bool_decide (Length (q s) = 0%nat)); simpl in He;
      inversion He; subst; try done.
    apply bool_decide_eq_false in Hge. apply pool_inv_spawn; [done|done|lia].
  - injection He as <- <-. apply pool_inv_queue; [done|].
    apply Delete_coherent, (inv_coherent s Hinv).
  - destruct (lock s) eqn:Hl; [done|]. injection He as <- <-.
    pose proof (pool_inv_cancel s Hinv) as H. by rewrite Hl in H.
  - by eapply worker_move_inv.
Qed.

Lemma pool_inv_init maxW : uint_range maxW -> pool_inv (NewWorkerPool maxW).
Proof.
  intros Hr. constructor; simpl; try done.
  unfold uint_range in Hr. lia.
Qed.

Lemma run_inv s acts ls s' : run s acts ls s' -> pool_inv s -> pool_inv s'.
Proof.
  induction 1 as [|s a l s1 acts ls s2 [_ He] _ IH]; [done|].
  intros Hinv. apply IH. by eapply exec_inv.
Qed.

Lemma reachable_inv s : reachable s -> pool_inv s.
Proof.
  intros (maxW & acts & ls & Hr & Hrun). eapply run_inv; [done|]. by apply pool_inv_init.
Qed.

Lemma ex_state_reachable : reachable ex_state.
Proof.
  exists 2, ex_acts, (replicate 12 None). split; [by vm_compute|].
  apply exec_all_run. vm_compute. reflexivity.
Qed.

(** ** Mutual exclusion and the worker bound *)

(** C1: in every reachable state of the pool, a Pop that is given the
    in-flight set as exclusion set returns no task whose key is in that set;
    every worker that is executing the get/merge/write step has its key in
    the in-flight set, and no two workers execute that step for the same
    key.  Pushes (for any key) may occur at any point of the run. *)
Theorem C1_mutual_exclusion s :
  reachable s ->
  (forall k, k ∈ currentlyWorking s ->
     forall target work q',
       Pop (currentlyWorking s) (q s) = (target, work, q') ->
       work <> None \/ target <> Resource_zero ->
       convert target <> k)
  /\ (forall i target work,
        workers s !! i = Some (AtGet target work) -> convert target ∈ currentlyWorking s)
  /\ (forall i j ti wi tj wj,
        workers s !! i = Some (AtGet ti wi) ->
        workers s !! j = Some (AtGet tj wj) ->
        i <> j -> convert ti <> convert tj).
Proof.
  intros Hinv%reachable_inv. split; [|split].
  - intros k Hk target work q' HP Htask Heq.
    destruct (Pop_returns _ _ _ _ _ (inv_coherent s Hinv) HP) as (_ & Hnone & Hsome).
    apply Hsome; [|by rewrite Heq].
    destruct Htask as [Hw|Ht]; [done|]. intros ->. by apply Ht, Hnone.
  - intros i target work Hi. by eapply (inv_marked s Hinv).
  - intros i j ti wi tj wj Hi Hj Hne Heq. apply Hne.
    eapply (inv_exclusive s Hinv _ _ _ _ (convert ti) Hi Hj); simpl; [done | by rewrite Heq].
Qed.

Lemma C1_mutual_exclusion_witness :
  workers ex_state = [AtGet (res "reviews" "1") (Some 1%positive);
                      AtGet (res "ratings" "7") (Some 2%positive)]
  /\ currentlyWorking ex_state = {[convert (res "reviews" "1"); convert (res "ratings" "7")]}
  /\ convert (res "reviews" "1") <> convert (res "ratings" "7").
Proof.
  split; [vm_compute; reflexivity|]. split.
  - apply set_eq. intros k. vm_compute. tauto.
  - apply (proj2 (proj2 (C1_mutual_exclusion ex_state ex_state_reachable))
             0%nat 1%nat _ (Some 1%positive) _ (Some 2%positive)).
    + vm_compute; reflexivity.
    + vm_compute; reflexivity.
    + discriminate.
Defined.

(** C4: in every reachable state the worker count equals the number of
    workers that have not returned and is at most maxWorkers; the
    provisioning step adds one to the count and starts a worker only when the
    count is below maxWorkers and the queue is not empty, and changes nothing
    otherwise; a move of a worker takes one off the count exactly when that
    worker returns, a worker that has returned never moves again, and no other
    action changes the count. *)
Theorem C4_worker_bound s :
  reachable s ->
  workerCount s <= maxWorkers s
  /\ workerCount s = Z.of_nat (live_count (workers s))
  /\ (forall s' l, exec a_maybeAddWorker s = Some (s', l) ->
        (workerCount s < maxWorkers s /\ Length (q s) <> 0%nat
         /\ workerCount s' = workerCount s + 1 /\ workers s' = workers s ++ [AtTop])
        \/ ((workerCount s >= maxWorkers s \/ Length (q s) = 0%nat) /\ s' = s))
  /\ (forall i o s' l, exec (a_worker i o) s = Some (s', l) ->
        (workers s' !! i = Some Exited /\ workerCount s' = workerCount s - 1
         /\ Z.of_nat (live_count (workers s')) = Z.of_nat (live_count (workers s)) - 1)
        \/ (workers s' !! i <> Some Exited /\ workerCount s' = workerCount s))
  /\ (forall i o, workers s !! i = Some Exited -> exec (a_worker i o) s = None)
  /\ (forall a s' l, exec a s = Some (s', l) ->
        match a with a_maybeAddWorker | a_worker _ _ => True
                | _ => workerCount s' = workerCount s end).
Proof.
  intros Hinv%reachable_inv.
  pose proof (inv_bound s Hinv) as Hb. pose proof (inv_count s Hinv) as Hc.
  pose proof (inv_max s Hinv) as Hm. unfold uint_range, uint_modulus in Hm.
  split; [done|]. split; [done|]. split; [|split; [|split]].
  - intros s' l He. unfold exec in He. destruct (lock s); [done|].
    destruct (bool_decide (workerCount s >= maxWorkers s)) eqn:Hge;
      destruct (bool_decide (Length (q s) = 0%nat)) eqn:Hlen; simpl in He;
      inversion He; subst; clear He;
      try apply bool_decide_eq_true in Hge; try apply bool_decide_eq_true in Hlen;
      try apply bool_decide_eq_false in Hge; try apply bool_decide_eq_false in Hlen;
      try (right; split; [tauto | done]).
    left. simpl. split; [lia|]. split; [done|]. split; [|done].
    unfold uint_inc, uint_modulus. rewrite Z.mod_small; lia.
  - intros i o s' l He. pose proof (exec_inv _ _ _ _ He Hinv) as Hinv'.
    unfold exec, worker_move in He.
    destruct (workers s !! i) as [w|] eqn:Hw; [|done].
    assert (Hlt : (i < length (workers s))%nat) by (by eapply lookup_lt_Some).
    destruct w as [| |target work|target work|target|]; try done.
    + destruct (lock s); [done|].
      destruct (closing s || bool_decide (Length (q s) = 0%nat)); injection He as <- <-; simpl.
      * left. unfold set_worker. rewrite list_lookup_insert_eq by done. split; [done|].
        pose proof (live_count_insert _ _ _ Exited Hw) as H. simpl in H.
        split; [|lia]. unfold uint_dec, uint_modulus. rewrite Z.mod_small; lia.
      * right. unfold set_worker. rewrite list_lookup_insert_eq by done. done.
    + destruct (Pop (currentlyWorking s) (q s)) as [[target work] q'].
      destruct (decide (target = Resource_zero)); injection He as <- <-; simpl;
        right; unfold set_worker; rewrite list_lookup_insert_eq by done; done.
    + injection He as <- <-; simpl.
      right; unfold set_worker; rewrite list_lookup_insert_eq by done; done.
    + injection He as <- <-; simpl.
      right; unfold set_worker; rewrite list_lookup_insert_eq by done; done.
    + destruct (lock s); [done|]. injection He as <- <-; simpl.
      right; unfold set_worker; rewrite list_lookup_insert_eq by done; done.
  - intros i o Hw. unfold exec, worker_move. by rewrite Hw.
  - intros a s' l He. destruct a as [target ctl progress| |target| |i o]; try done;
      unfold exec in He.
    + destruct (Push target ctl progress (heap s, q s)). by injection He as <- <-.
    + by injection He as <- <-.
    + destruct (lock s); [done|]. by injection He as <- <-.
Qed.

Lemma C4_worker_bound_witness :
  workerCount ex_state = 2 /\ maxWorkers ex_state = 2
  /\ workerCount ex_state <= maxWorkers ex_state
  /\ workerCount ex_state = Z.of_nat (live_count (workers ex_state)).
Proof.
  split; [vm_compute; reflexivity|]. split; [vm_compute; reflexivity|].
  pose proof (C4_worker_bound ex_state ex_state_reachable) as H.
  split; [exact (proj1 H) | exact (proj1 (proj2 H))].
Defined.

(** ** The zero-value Resource *)










